(** * ext_job: the external-job descriptor of libecl_queue and its Python printer

    A shallow embedding of [devel/libecl_queue/src/ext_job.c]: the descriptor
    struct, its allocator and mutators, and [ext_job_python_fprintf], which
    prints the descriptor as a Python dictionary literal on a [FILE].

    Conventions of the embedding:
    - a [char *] field is an [option string] ([None] is the NULL pointer), the
      string being the bytes before the terminating NUL;
    - an [int] is a [Z]; the only arithmetic on an [int] is [argc++] and the
      loop counters, and the model covers descriptors with fewer than 2^31
      arguments (beyond that [argc++] is undefined in C);
    - a function that writes through a pointer returns the new value of the
      object; the printer runs in a state monad over the memory it can see
      (the descriptor and the stream), with [None] for a call that does not
      return (abort, out-of-bounds read). *)

From Stdlib Require Import Ascii String.
From stdpp Require Import base strings list gmap.

Local Open Scope string_scope.
Local Open Scope list_scope.
Local Open Scope Z_scope.

(** ** Characters and strings *)

(** The double quote and the newline (bytes 34 and 10), which the C format
    strings write with a backslash escape. *)
Definition dquote : string := String "034"%char EmptyString.
Definition newline : string := String "010"%char EmptyString.

(** ** The collaborators: hash.h and util.h *)

(** Modelled from the spec: [hash.h] and its implementation are not among the
    sources.  The specification asks of the string-keyed mapping utility
    insert-or-replace by key, lookup by key, key count and the enumeration of
    all keys in an order it does not fix, with unique keys.  The class states
    that contract for the five entry points [ext_job.c] calls; [hash_get] is
    [None] on an absent key, where the C function does not return. *)
Class Hash := {
  hash_type : Type;
  hash_alloc : hash_type;
  hash_insert_hash_owned_ref : hash_type → string → string → hash_type;
  hash_get : hash_type → string → option string;
  hash_get_size : hash_type → Z;
  hash_alloc_keylist : hash_type → list string;
  hash_get_alloc k : hash_get hash_alloc k = None;
  hash_get_insert_eq h k v :
    hash_get (hash_insert_hash_owned_ref h k v) k = Some v;
  hash_get_insert_ne h k k' v :
    k ≠ k' → hash_get (hash_insert_hash_owned_ref h k v) k' = hash_get h k';
  hash_keylist_NoDup h : NoDup (hash_alloc_keylist h);
  hash_keylist_elem h k : k ∈ hash_alloc_keylist h ↔ is_Some (hash_get h k);
  hash_size_keylist h :
    hash_get_size h = Z.of_nat (length (hash_alloc_keylist h))
}.

(** Modelled from the spec: [util.h] is not among the sources.  A setter
    "replaces the corresponding optional field unconditionally", so
    [util_realloc_string_copy old src] is a fresh copy of [src] whatever the
    old content was. *)
Definition util_realloc_string_copy (old_string : option string) (src : string)
  : option string := Some src.

(** Modelled from the spec: [util_alloc_string_copy] of [util.h], a fresh copy
    of its argument ("accepted verbatim"). *)
Definition util_alloc_string_copy (src : string) : string := src.

(** ** stdio *)

(** A stream: the bytes it has accepted, its error indicator, and the outcome
    of the writes to come ([true]: that write fails; past the end of the list
    every write succeeds). *)
Record FILE := mkFILE {
  contents : string;
  error : bool;
  faults : list bool
}.

(** One write of an already formatted text: the stream afterwards and the
    value [fprintf] returns (the number of bytes, or a negative value when
    the write fails, in which case the error indicator is set). *)
Definition fwrite_string (f : FILE) (s : string) : FILE * Z :=
  match faults f with
  | true :: fs => (mkFILE (contents f) true fs, -1)
  | false :: fs => (mkFILE (contents f +:+ s) (error f) fs, Z.of_nat (String.length s))
  | [] => (mkFILE (contents f +:+ s) (error f) [], Z.of_nat (String.length s))
  end.

Section ExtJob.
Context `{Hash}.

(** ** The descriptor *)

Record ext_job_struct := mk_ext_job {
  priority : Z;
  portable_exe : option string;
  init_code : option string;
  target_file : option string;
  stdout_file : option string;
  stdin_file : option string;
  stderr_file : option string;
  argv : list string;
  argc : Z;
  platform_exe : hash_type;
  environment : hash_type
}.

Definition ext_job_alloc (priority : Z) : ext_job_struct :=
  {| priority := priority;
     portable_exe := None;
     init_code := None;
     stdout_file := None;
     target_file := None;
     stdin_file := None;
     stderr_file := None;
     argv := [];
     argc := 0;
     platform_exe := hash_alloc;
     environment := hash_alloc |}.

Definition ext_job_set_portable_exe (ext_job : ext_job_struct) (s : string)
  : ext_job_struct :=
  let (pr, pe, ic, tf, so, si, se, av, ac, pl, en) := ext_job in
  mk_ext_job pr (util_realloc_string_copy pe s) ic tf so si se av ac pl en.

Definition ext_job_set_init_code (ext_job : ext_job_struct) (s : string)
  : ext_job_struct :=
  let (pr, pe, ic, tf, so, si, se, av, ac, pl, en) := ext_job in
  mk_ext_job pr pe (util_realloc_string_copy ic s) tf so si se av ac pl en.

Definition ext_job_set_stdout_file (ext_job : ext_job_struct) (s : string)
  : ext_job_struct :=
  let (pr, pe, ic, tf, so, si, se, av, ac, pl, en) := ext_job in
  mk_ext_job pr pe ic tf (util_realloc_string_copy so s) si se av ac pl en.

Definition ext_job_set_target_file (ext_job : ext_job_struct) (s : string)
  : ext_job_struct :=
  let (pr, pe, ic, tf, so, si, se, av, ac, pl, en) := ext_job in
  mk_ext_job pr pe ic (util_realloc_string_copy tf s) so si se av ac pl en.

Definition ext_job_set_stdin_file (ext_job : ext_job_struct) (s : string)
  : ext_job_struct :=
  let (pr, pe, ic, tf, so, si, se, av, ac, pl, en) := ext_job in
  mk_ext_job pr pe ic tf so (util_realloc_string_copy si s) se av ac pl en.

Definition ext_job_set_stderr_file (ext_job : ext_job_struct) (s : string)
  : ext_job_struct :=
  let (pr, pe, ic, tf, so, si, se, av, ac, pl, en) := ext_job in
  mk_ext_job pr pe ic tf so si (util_realloc_string_copy se s) av ac pl en.

Definition ext_job_add_platform_exe (ext_job : ext_job_struct)
    (platform exe : string) : ext_job_struct :=
  let (pr, pe, ic, tf, so, si, se, av, ac, pl, en) := ext_job in
  mk_ext_job pr pe ic tf so si se av ac
    (hash_insert_hash_owned_ref pl platform (util_alloc_string_copy exe)) en.

Definition ext_job_add_environment (ext_job : ext_job_struct)
    (platform exe : string) : ext_job_struct :=
  let (pr, pe, ic, tf, so, si, se, av, ac, pl, en) := ext_job in
  mk_ext_job pr pe ic tf so si se av ac pl
    (hash_insert_hash_owned_ref en platform (util_alloc_string_copy exe)).

(** [argv] is reallocated to [argc + 1] slots, the copy of [arg] goes into
    slot [argc], and [argc] is incremented. *)
Definition ext_job_add_arg (ext_job : ext_job_struct) (arg : string)
  : ext_job_struct :=
  let (pr, pe, ic, tf, so, si, se, av, ac, pl, en) := ext_job in
  mk_ext_job pr pe ic tf so si se
    (take (Z.to_nat ac) av ++ [util_alloc_string_copy arg]) (ac + 1) pl en.

(** ** The printer *)

(** The memory the printer works on: the descriptor behind [ext_job] and the
    stream behind [stream]. *)
Record mem := mkMem {
  m_job : ext_job_struct;
  m_stream : FILE
}.

(** Computations over that memory; [None] is a call that does not return. *)
Definition M (A : Type) : Type := mem → option (A * mem).

Definition ret {A} (a : A) : M A := λ m, Some (a, m).
Definition bind {A B} (c : M A) (k : A → M B) : M B :=
  λ m, match c m with
       | Some (a, m') => k a m'
       | None => None
       end.
Definition undefined {A} : M A := λ _, None.

(** [x ← c; k] and [c;; k] are stdpp's notations for [bind]. *)
#[local] Instance M_bind : MBind M := λ A B k c, bind c k.

(** Reading a field through the [const ext_job_type *]. *)
Definition load {A} (field : ext_job_struct → A) : M A :=
  λ m, Some (field (m_job m), m).

(** [fprintf(stream, ...)] once the format has been expanded to [s]. *)
Definition fprintf (s : string) : M Z :=
  λ m, let (f, r) := fwrite_string (m_stream m) s in
       Some (r, mkMem (m_job m) f).

(** [list[i]] on a C array holding the elements of [l]. *)
Definition index (l : list string) (i : Z) : M string :=
  if decide (0 ≤ i) then
    match l !! Z.to_nat i with
    | Some s => ret s
    | None => undefined
    end
  else undefined.

(** [for (i = lo; i < hi; i++) body(i)], for a body that assigns neither [i]
    nor [hi]: [hi - lo] rounds when that is positive, none otherwise. *)
Fixpoint for_rounds (n : nat) (i : Z) (body : Z → M unit) : M unit :=
  match n with
  | O => ret tt
  | S n' => body i;; for_rounds n' (i + 1) body
  end.
Definition for_ (lo hi : Z) (body : Z → M unit) : M unit :=
  for_rounds (Z.to_nat (hi - lo)) lo body.

Definition __fprintf_python_string (id : string) (value : option string)
  : M unit :=
  fprintf (dquote +:+ id +:+ dquote +:+ " : ");;
  match value with
  | None => fprintf "None";; ret tt
  | Some v => fprintf (dquote +:+ v +:+ dquote);; ret tt
  end.

Definition __fprintf_python_list (id : string) (list : list string) (size : Z)
  : M unit :=
  fprintf (dquote +:+ id +:+ dquote +:+ " : ");;
  fprintf "[";;
  for_ 0 size (λ i,
    s ← index list i;
    fprintf (dquote +:+ s +:+ dquote);;
    if decide (i < size - 1) then fprintf ",";; ret tt else ret tt);;
  fprintf "]";;
  ret tt.

(** [hash_get] on a key the table does not hold does not return. *)
Definition hash_get_value (hash : hash_type) (key : string) : M string :=
  match hash_get hash key with
  | Some v => ret v
  | None => undefined
  end.

Definition __fprintf_python_hash (id : string) (hash : hash_type) : M unit :=
  let size := hash_get_size hash in
  let key_list := hash_alloc_keylist hash in
  fprintf (dquote +:+ id +:+ dquote +:+ " : ");;
  fprintf "{";;
  for_ 0 size (λ i,
    k ← index key_list i;
    k' ← index key_list i;
    v ← hash_get_value hash k';
    fprintf (dquote +:+ k +:+ dquote +:+ ":" +:+ dquote +:+ v +:+ dquote);;
    if decide (i < size - 1) then fprintf ",";; ret tt else ret tt);;
  fprintf "}";;
  ret tt.

Definition __end_line : M unit :=
  fprintf ("," +:+ newline);; ret tt.

Definition __indent (indent : Z) : M unit :=
  for_ 0 indent (λ _, fprintf " ";; ret tt).

Definition ext_job_python_fprintf : M unit :=
  fprintf " {";;
  __indent 0;; v ← load portable_exe; __fprintf_python_string "portable_exe" v;; __end_line;;
  __indent 2;; v ← load init_code; __fprintf_python_string "init_code" v;; __end_line;;
  __indent 2;; v ← load target_file; __fprintf_python_string "target_file" v;; __end_line;;
  __indent 2;; v ← load stdout_file; __fprintf_python_string "stdout" v;; __end_line;;
  __indent 2;; v ← load stderr_file; __fprintf_python_string "stderr" v;; __end_line;;
  __indent 2;; v ← load stdin_file; __fprintf_python_string "stdin" v;; __end_line;;
  __indent 2;; l ← load argv; n ← load argc; __fprintf_python_list "argList" l n;; __end_line;;
  __indent 2;; h ← load environment; __fprintf_python_hash "environment" h;; __end_line;;
  __indent 2;; h ← load platform_exe; __fprintf_python_hash "platform_exe" h;;
  fprintf ("}" +:+ newline);;
  ret tt.

(** ** The mutators as the operations of the specification *)

(** One call of a mutator, under the name the specification gives it. *)
Inductive mutator :=
  | SetPortableExe (path : string)
  | SetInitCode (text : string)
  | SetStdoutFile (path : string)
  | SetStderrFile (path : string)
  | SetStdinFile (path : string)
  | SetTargetFile (path : string)
  | AddPlatformExe (platform exePath : string)
  | AddEnvironmentVar (name value : string)
  | AddArgument (arg : string).

Definition call (ext_job : ext_job_struct) (c : mutator) : ext_job_struct :=
  match c with
  | SetPortableExe s => ext_job_set_portable_exe ext_job s
  | SetInitCode s => ext_job_set_init_code ext_job s
  | SetStdoutFile s => ext_job_set_stdout_file ext_job s
  | SetStderrFile s => ext_job_set_stderr_file ext_job s
  | SetStdinFile s => ext_job_set_stdin_file ext_job s
  | SetTargetFile s => ext_job_set_target_file ext_job s
  | AddPlatformExe k v => ext_job_add_platform_exe ext_job k v
  | AddEnvironmentVar k v => ext_job_add_environment ext_job k v
  | AddArgument a => ext_job_add_arg ext_job a
  end.

(** A sequence of calls on one descriptor, first call first. *)
Definition calls (ext_job : ext_job_struct) (cs : list mutator) : ext_job_struct :=
  foldl call ext_job cs.

(** The arguments a sequence of calls adds, in call order. *)
Definition added_args (cs : list mutator) : list string :=
  omap (λ c, match c with AddArgument a => Some a | _ => None end) cs.

(** The invariant of the counted array: [argc] is the number of slots of
    [argv]. *)
Definition counted (ext_job : ext_job_struct) : Prop :=
  argc ext_job = Z.of_nat (length (argv ext_job)).

(** The entries of a table in the order of its key list. *)
Definition hash_entries (hash : hash_type) : list (string * string) :=
  omap (λ k, v ← hash_get hash k; Some (k, v)) (hash_alloc_keylist hash).

(** The bytes a call of the printer puts on a fresh stream that accepts every
    write; [None] if the call does not return. *)
Definition Serialize (ext_job : ext_job_struct) : option string :=
  match ext_job_python_fprintf (mkMem ext_job (mkFILE "" false [])) with
  | Some (_, m) => Some (contents (m_stream m))
  | None => None
  end.

(** The parts of a descriptor: the priority, the six optional strings, the
    argument sequence (the array with its count) and the two mappings. *)
Inductive part :=
  | Priority | PortableExe | InitCode | TargetFile | StdoutFile | StdinFile
  | StderrFile | Arguments_ | PlatformExe | Environment.

(** The part a mutator is for. *)
Definition target (c : mutator) : part :=
  match c with
  | SetPortableExe _ => PortableExe
  | SetInitCode _ => InitCode
  | SetStdoutFile _ => StdoutFile
  | SetStderrFile _ => StderrFile
  | SetStdinFile _ => StdinFile
  | SetTargetFile _ => TargetFile
  | AddPlatformExe _ _ => PlatformExe
  | AddEnvironmentVar _ _ => Environment
  | AddArgument _ => Arguments_
  end.

(** Two descriptors hold the same value in a part. *)
Definition same_part (x : part) (j j' : ext_job_struct) : Prop :=
  match x with
  | Priority => priority j = priority j'
  | PortableExe => portable_exe j = portable_exe j'
  | InitCode => init_code j = init_code j'
  | TargetFile => target_file j = target_file j'
  | StdoutFile => stdout_file j = stdout_file j'
  | StdinFile => stdin_file j = stdin_file j'
  | StderrFile => stderr_file j = stderr_file j'
  | Arguments_ => argv j = argv j' ∧ argc j = argc j'
  | PlatformExe => platform_exe j = platform_exe j'
  | Environment => environment j = environment j'
  end.

(** A descriptor with another value in its priority. *)
Definition with_priority (ext_job : ext_job_struct) (p : Z) : ext_job_struct :=
  let (_, pe, ic, tf, so, si, se, av, ac, pl, en) := ext_job in
  mk_ext_job p pe ic tf so si se av ac pl en.

(** The descriptor of the end-to-end example of the specification. *)
Definition example_job : ext_job_struct :=
  let ext_job := ext_job_alloc 10 in
  let ext_job := ext_job_set_portable_exe ext_job "/bin/eclipse" in
  let ext_job := ext_job_add_arg ext_job "--version" in
  let ext_job := ext_job_add_environment ext_job "F_UFMTENDIAN" "big" in
  let ext_job := ext_job_add_platform_exe ext_job "x86_64" "/local/eclipse.exe" in
  ext_job_set_stdout_file ext_job "eclipse.stdout".

End ExtJob.

Arguments ext_job_struct {_}.
Arguments mem {_}.
Arguments M {_} _.
#[export] Existing Instance M_bind.

(** ** The text format of the specification *)

(** The emitted format as the specification words it: what an optional
    string, the argument list and a mapping render as, and the layout of the
    nine fields. *)
Module Spec.

Definition PyString (s : string) : string := dquote +:+ s +:+ dquote.

Definition PyStringOrNone (v : option string) : string :=
  match v with
  | None => "None"
  | Some s => PyString s
  end.

Definition PyList (l : list string) : string :=
  "[" +:+ String.concat "," (PyString <$> l) +:+ "]".

Definition PyPair (e : string * string) : string :=
  PyString e.1 +:+ ":" +:+ PyString e.2.

Definition PyMapping (es : list (string * string)) : string :=
  "{" +:+ String.concat "," (PyPair <$> es) +:+ "}".

Definition field (id text : string) : string :=
  PyString id +:+ " : " +:+ text.

(** Eight fields each followed by a comma and a newline, the ninth by the
    closing brace and a newline; two spaces before every field but the
    first. *)
Definition record (f1 f2 f3 f4 f5 f6 f7 f8 f9 : string) : string :=
  " {" +:+ f1 +:+ "," +:+ newline +:+
  "  " +:+ f2 +:+ "," +:+ newline +:+
  "  " +:+ f3 +:+ "," +:+ newline +:+
  "  " +:+ f4 +:+ "," +:+ newline +:+
  "  " +:+ f5 +:+ "," +:+ newline +:+
  "  " +:+ f6 +:+ "," +:+ newline +:+
  "  " +:+ f7 +:+ "," +:+ newline +:+
  "  " +:+ f8 +:+ "," +:+ newline +:+
  "  " +:+ f9 +:+ "}" +:+ newline.

(** The record for given values of the six optional strings, the argument
    sequence and the entries of the two mappings. *)
Definition descriptor (portable_exe init_code target_file stdout stderr stdin
    : option string) (arguments : list string)
    (environment platform_exe : list (string * string)) : string :=
  record
    (field "portable_exe" (PyStringOrNone portable_exe))
    (field "init_code" (PyStringOrNone init_code))
    (field "target_file" (PyStringOrNone target_file))
    (field "stdout" (PyStringOrNone stdout))
    (field "stderr" (PyStringOrNone stderr))
    (field "stdin" (PyStringOrNone stdin))
    (field "argList" (PyList arguments))
    (field "environment" (PyMapping environment))
    (field "platform_exe" (PyMapping platform_exe)).

End Spec.

(** The record of the specification for the fields of a descriptor. *)
Definition python_record `{Hash} (ext_job : ext_job_struct) : string :=
  Spec.descriptor
    (portable_exe ext_job) (init_code ext_job) (target_file ext_job)
    (stdout_file ext_job) (stderr_file ext_job) (stdin_file ext_job)
    (argv ext_job)
    (hash_entries (environment ext_job)) (hash_entries (platform_exe ext_job)).

(** The record of the end-to-end example, byte for byte. *)
Definition example_record : string :=
  " {" +:+ dquote +:+ "portable_exe" +:+ dquote +:+ " : "
       +:+ dquote +:+ "/bin/eclipse" +:+ dquote +:+ "," +:+ newline +:+
  "  " +:+ dquote +:+ "init_code" +:+ dquote +:+ " : None," +:+ newline +:+
  "  " +:+ dquote +:+ "target_file" +:+ dquote +:+ " : None," +:+ newline +:+
  "  " +:+ dquote +:+ "stdout" +:+ dquote +:+ " : "
       +:+ dquote +:+ "eclipse.stdout" +:+ dquote +:+ "," +:+ newline +:+
  "  " +:+ dquote +:+ "stderr" +:+ dquote +:+ " : None," +:+ newline +:+
  "  " +:+ dquote +:+ "stdin" +:+ dquote +:+ " : None," +:+ newline +:+
  "  " +:+ dquote +:+ "argList" +:+ dquote +:+ " : ["
       +:+ dquote +:+ "--version" +:+ dquote +:+ "]," +:+ newline +:+
  "  " +:+ dquote +:+ "environment" +:+ dquote +:+ " : {"
       +:+ dquote +:+ "F_UFMTENDIAN" +:+ dquote +:+ ":"
       +:+ dquote +:+ "big" +:+ dquote +:+ "}," +:+ newline +:+
  "  " +:+ dquote +:+ "platform_exe" +:+ dquote +:+ " : {"
       +:+ dquote +:+ "x86_64" +:+ dquote +:+ ":"
       +:+ dquote +:+ "/local/eclipse.exe" +:+ dquote +:+ "}}" +:+ newline.

(** The record of a descriptor nothing has been set in. *)
Definition empty_record : string :=
  " {" +:+ dquote +:+ "portable_exe" +:+ dquote +:+ " : None," +:+ newline +:+
  "  " +:+ dquote +:+ "init_code" +:+ dquote +:+ " : None," +:+ newline +:+
  "  " +:+ dquote +:+ "target_file" +:+ dquote +:+ " : None," +:+ newline +:+
  "  " +:+ dquote +:+ "stdout" +:+ dquote +:+ " : None," +:+ newline +:+
  "  " +:+ dquote +:+ "stderr" +:+ dquote +:+ " : None," +:+ newline +:+
  "  " +:+ dquote +:+ "stdin" +:+ dquote +:+ " : None," +:+ newline +:+
  "  " +:+ dquote +:+ "argList" +:+ dquote +:+ " : []," +:+ newline +:+
  "  " +:+ dquote +:+ "environment" +:+ dquote +:+ " : {}," +:+ newline +:+
  "  " +:+ dquote +:+ "platform_exe" +:+ dquote +:+ " : {}}" +:+ newline.

(** ** The writes of a call *)

(** The stream after the texts of [texts] have been written to it in turn. *)
Definition fwrite_all (f : FILE) (texts : list string) : FILE :=
  foldl (λ f s, (fwrite_string f s).1) f texts.

(** The bytes of a sequence of texts. *)
Definition text_of (texts : list string) : string :=
  foldr String.app "" texts.

(** The texts of a loop that writes a comma after every item but the last. *)
Fixpoint separated (items : list string) : list string :=
  match items with
  | [] => []
  | x :: xs => x :: match xs with [] => [] | _ => ["," ] end ++ separated xs
  end.

Section Writes.
Context `{Hash}.

(** A computation that, on the descriptor [j] and any stream, returns after
    writing the texts [w] in turn and leaves the descriptor as it was. *)
Definition emits (j : ext_job_struct) (c : M unit) (w : list string) : Prop :=
  ∀ f, c (mkMem j f) = Some (tt, mkMem j (fwrite_all f w)).

Definition string_writes (id : string) (value : option string) : list string :=
  [dquote +:+ id +:+ dquote +:+ " : ";
   match value with
   | None => "None"
   | Some v => dquote +:+ v +:+ dquote
   end].

Definition list_writes (id : string) (l : list string) : list string :=
  [dquote +:+ id +:+ dquote +:+ " : "; "["]
  ++ separated ((λ s, dquote +:+ s +:+ dquote) <$> l) ++ ["]"].

Definition pair_write (e : string * string) : string :=
  dquote +:+ e.1 +:+ dquote +:+ ":" +:+ dquote +:+ e.2 +:+ dquote.

Definition hash_writes (id : string) (h : hash_type) : list string :=
  [dquote +:+ id +:+ dquote +:+ " : "; "{"]
  ++ separated (pair_write <$> hash_entries h) ++ ["}"].

Definition end_line_writes : list string := ["," +:+ newline].

Definition indent_writes (indent : Z) : list string :=
  replicate (Z.to_nat indent) " ".

(** The texts [ext_job_python_fprintf] hands to [fprintf], in order. *)
Definition writes (j : ext_job_struct) : list string :=
  " {" ::
  indent_writes 0 ++ string_writes "portable_exe" (portable_exe j) ++ end_line_writes ++
  indent_writes 2 ++ string_writes "init_code" (init_code j) ++ end_line_writes ++
  indent_writes 2 ++ string_writes "target_file" (target_file j) ++ end_line_writes ++
  indent_writes 2 ++ string_writes "stdout" (stdout_file j) ++ end_line_writes ++
  indent_writes 2 ++ string_writes "stderr" (stderr_file j) ++ end_line_writes ++
  indent_writes 2 ++ string_writes "stdin" (stdin_file j) ++ end_line_writes ++
  indent_writes 2 ++ list_writes "argList" (argv j) ++ end_line_writes ++
  indent_writes 2 ++ hash_writes "environment" (environment j) ++ end_line_writes ++
  indent_writes 2 ++ hash_writes "platform_exe" (platform_exe j) ++
  ["}" +:+ newline].

End Writes.

(** ** The history of a descriptor *)

#[export] Instance part_eq_dec : EqDecision part.
Proof. solve_decision. Defined.

(** The string a setter call passes. *)
Definition set_value (c : mutator) : option string :=
  match c with
  | SetPortableExe s | SetInitCode s | SetStdoutFile s
  | SetStderrFile s | SetStdinFile s | SetTargetFile s => Some s
  | _ => None
  end.

(** The string of the last call, in a sequence of calls, of the setter of
    the part [x]; [None] if the sequence has no such call. *)
Definition last_set (x : part) (cs : list mutator) : option string :=
  last (omap (λ c, if decide (target c = x) then set_value c else None) cs).

(** The key and the value a call adds to the mapping [x]. *)
Definition added_entry (x : part) (c : mutator) : option (string * string) :=
  match c with
  | AddPlatformExe k v => if decide (x = PlatformExe) then Some (k, v) else None
  | AddEnvironmentVar k v => if decide (x = Environment) then Some (k, v) else None
  | _ => None
  end.

(** The value of the last call, in a sequence of calls, that adds the key
    [k] to the mapping [x]; [None] if no call does. *)
Definition last_added (x : part) (cs : list mutator) (k : string)
  : option string :=
  last (omap (λ c, match added_entry x c with
                   | Some e => if decide (e.1 = k) then Some e.2 else None
                   | None => None
                   end) cs).

(** A string with no double quote in it. *)
Fixpoint quote_free (s : string) : bool :=
  match s with
  | EmptyString => true
  | String c s' => negb (Ascii.eqb c "034"%char) && quote_free s'
  end.

(** [n] spaces. *)
Fixpoint spaces (n : nat) : string :=
  match n with
  | O => ""
  | S n' => String " "%char (spaces n')
  end.

(** ** A mapping utility meeting the contract: stdpp's [gmap] *)

(** Keys are enumerated in the order of the map's internal representation,
    which is neither insertion order nor sorted order. *)
#[export, refine] Instance gmap_hash : Hash := {|
  hash_type := gmap string string;
  hash_alloc := ∅;
  hash_insert_hash_owned_ref h k v := <[k:=v]> h;
  hash_get h k := h !! k;
  hash_get_size h := Z.of_nat (size h);
  hash_alloc_keylist h := (map_to_list h).*1
|}.
Proof.
  - intros k. apply lookup_empty.
  - intros h k v. apply lookup_insert_eq.
  - intros h k k' v Hne. by apply lookup_insert_ne.
  - intros h. apply NoDup_fst_map_to_list.
  - intros h k. rewrite list_elem_of_fmap. split.
    + intros [[k' v] [-> Hin]]. apply elem_of_map_to_list in Hin. eauto.
    + intros [v Hv]. exists (k, v). split; [done|]. by apply elem_of_map_to_list.
  - intros h. by rewrite length_fmap, length_map_to_list.
Defined.

(** * Properties *)

(** ** Strings *)

Lemma string_app_assoc (a b c : string) : (a +:+ b) +:+ c = a +:+ (b +:+ c).
Proof.
  induction a as [|x a IH]; [done|].
  change (String x ((a +:+ b) +:+ c) = String x (a +:+ (b +:+ c))).
  by rewrite IH.
Qed.

Lemma string_app_nil_r (a : string) : a +:+ "" = a.
Proof.
  induction a as [|x a IH]; [done|].
  change (String x (a +:+ "") = String x a). by rewrite IH.
Qed.

Lemma text_of_app (u v : list string) :
  text_of (u ++ v) = text_of u +:+ text_of v.
Proof.
  induction u as [|x u IH]; [done|].
  change (x +:+ text_of (u ++ v) = (x +:+ text_of u) +:+ text_of v).
  by rewrite IH, string_app_assoc.
Qed.

Lemma text_of_separated (items : list string) :
  text_of (separated items) = String.concat "," items.
Proof.
  induction items as [|x [|y items] IH]; [done| |].
  - apply string_app_nil_r.
  - change (x +:+ "," +:+ text_of (separated (y :: items))
            = x +:+ "," +:+ String.concat "," (y :: items)).
    by rewrite IH.
Qed.

(** ** Streams *)

Lemma fwrite_all_app (f : FILE) (u v : list string) :
  fwrite_all f (u ++ v) = fwrite_all (fwrite_all f u) v.
Proof. apply foldl_app. Qed.

(** On a stream with no fault to come the texts are appended. *)
Lemma fwrite_all_sound (buf : string) (e : bool) (texts : list string) :
  fwrite_all (mkFILE buf e []) texts = mkFILE (buf +:+ text_of texts) e [].
Proof.
  revert buf. induction texts as [|s texts IH]; intros buf.
  - cbn. by rewrite string_app_nil_r.
  - change (fwrite_all (mkFILE (buf +:+ s) e []) texts
            = mkFILE (buf +:+ s +:+ text_of texts) e []).
    by rewrite IH, string_app_assoc.
Qed.

(** Every write consumes one outcome, and the error indicator is raised by a
    failing write and never lowered. *)
Lemma fwrite_all_faults (f : FILE) (texts : list string) :
  faults (fwrite_all f texts) = drop (length texts) (faults f) ∧
  error (fwrite_all f texts)
  = error f || existsb id (take (length texts) (faults f)).
Proof.
  revert f. induction texts as [|s texts IH]; intros f.
  - cbn. by rewrite drop_0, orb_false_r.
  - change (fwrite_all f (s :: texts))
      with (fwrite_all (fwrite_string f s).1 texts).
    destruct (IH (fwrite_string f s).1) as [-> ->].
    unfold fwrite_string. destruct f as [buf e [|[|] fs]]; cbn.
    + by rewrite drop_nil, take_nil.
    + by rewrite orb_true_r.
    + done.
Qed.

(** ** The printer, call by call *)

Section Printer.
Context `{Hash}.
Implicit Types (j : ext_job_struct) (c : M unit) (w : list string).

Lemma emits_ret j : emits j (ret tt) [].
Proof. by intros f. Qed.

Lemma emits_fprintf j (s : string) c w :
  emits j c w → emits j (fprintf s;; c) (s :: w).
Proof.
  intros Hc f. unfold mbind, M_bind, bind, fprintf. cbn.
  destruct (fwrite_string f s) as [f' r] eqn:E.
  rewrite (Hc f'). by replace f' with (fwrite_string f s).1 by by rewrite E.
Qed.

Lemma emits_seq j c1 c2 w1 w2 :
  emits j c1 w1 → emits j c2 w2 → emits j (c1;; c2) (w1 ++ w2).
Proof.
  intros H1 H2 f. unfold mbind, M_bind, bind.
  by rewrite (H1 f), (H2 _), fwrite_all_app.
Qed.

(** One call in a sequence, given the lemma for the function called. *)
Ltac emits_call lem := apply emits_seq; [apply lem|].

Lemma emits_load {A} j (field : ext_job_struct → A) (k : A → M unit) w :
  emits j (k (field j)) w → emits j (v ← load field; k v) w.
Proof. intros Hk f. unfold mbind, M_bind, bind, load. cbn. apply Hk. Qed.

Lemma emits_index j (l : list string) (i : nat) (x : string)
    (k : string → M unit) w :
  l !! i = Some x → emits j (k x) w →
  emits j (s ← index l (Z.of_nat i); k s) w.
Proof.
  intros Hl Hk f. unfold mbind, M_bind, bind, index.
  rewrite decide_True by lia. rewrite Nat2Z.id, Hl. apply Hk.
Qed.

(** A loop whose round [i] writes the [i]-th text and then a comma unless it
    is the last round. *)
Lemma emits_for_rounds j (body : Z → M unit) (size : Z) (texts : list string)
    (k : nat) :
  size = Z.of_nat (k + length texts) →
  (∀ i t, texts !! i = Some t →
     emits j (body (Z.of_nat (k + i)))
       (t :: if decide (Z.of_nat (k + i) < size - 1) then [","] else [])) →
  emits j (for_rounds (length texts) (Z.of_nat k) body) (separated texts).
Proof.
  revert k. induction texts as [|t texts IH]; intros k Hsize Hbody.
  - apply emits_ret.
  - cbn [length for_rounds].
    replace (separated (t :: texts))
      with ((t :: if decide (Z.of_nat (k + 0) < size - 1) then [","] else [])
            ++ separated texts).
    + apply emits_seq.
      * replace (Z.of_nat k) with (Z.of_nat (k + 0)) by lia. by apply Hbody.
      * replace (Z.of_nat k + 1) with (Z.of_nat (S k)) by lia.
        apply IH; [cbn in Hsize; lia|].
        intros i t' Ht'. replace (S k + i)%nat with (k + S i)%nat by lia.
        by apply Hbody.
    + cbn in Hsize. destruct texts as [|t' texts].
      * rewrite decide_False by (cbn in Hsize; lia). done.
      * rewrite decide_True by (cbn in Hsize; lia). done.
Qed.

Lemma emits_for j (body : Z → M unit) (texts : list string) :
  (∀ i t, texts !! i = Some t →
     emits j (body (Z.of_nat i))
       (t :: if decide (Z.of_nat i < Z.of_nat (length texts) - 1)
             then [","] else [])) →
  emits j (for_ 0 (Z.of_nat (length texts)) body) (separated texts).
Proof.
  intros Hbody. unfold for_.
  replace (Z.to_nat (Z.of_nat (length texts) - 0)) with (length texts) by lia.
  apply (emits_for_rounds j body (Z.of_nat (length texts)) texts 0); [done|].
  intros i t Ht. by apply Hbody.
Qed.

Lemma emits_if_comma j (b : Prop) `{Decision b} :
  emits j (if decide b then fprintf ",";; ret tt else ret tt)
    (if decide b then [","] else []).
Proof.
  destruct (decide b).
  - apply emits_fprintf, emits_ret.
  - apply emits_ret.
Qed.

Lemma emits_string j (id : string) (value : option string) :
  emits j (__fprintf_python_string id value) (string_writes id value).
Proof.
  unfold __fprintf_python_string, string_writes. apply emits_fprintf.
  destruct value; apply emits_fprintf, emits_ret.
Qed.

Lemma emits_list j (id : string) (l : list string) :
  emits j (__fprintf_python_list id l (Z.of_nat (length l))) (list_writes id l).
Proof.
  unfold __fprintf_python_list, list_writes.
  apply emits_fprintf, emits_fprintf.
  apply emits_seq; [|apply emits_fprintf, emits_ret].
  rewrite <- (length_fmap (λ s, dquote +:+ s +:+ dquote) l) at 1.
  apply emits_for. intros i t Ht.
  rewrite list_lookup_fmap in Ht.
  destruct (l !! i) as [x|] eqn:Hx; [|done]. injection Ht as <-.
  apply (emits_index j l i x); [done|].
  rewrite length_fmap. apply emits_fprintf, emits_if_comma.
Qed.

Lemma omap_total {A B} (f : A → option B) (g : A → B) (l : list A) :
  (∀ x, x ∈ l → f x = Some (g x)) → omap f l = g <$> l.
Proof.
  induction l as [|a l IH]; intros Hf; [done|].
  cbn. rewrite (Hf a) by apply list_elem_of_here.
  f_equal. apply IH. intros x Hx. apply Hf. by apply list_elem_of_further.
Qed.

(** Every key of the key list is held by the table, so the entries are the
    keys of the key list, each with its value. *)
Lemma hash_entries_keylist (h : hash_type) :
  hash_entries h
  = (λ k, (k, default "" (hash_get h k))) <$> hash_alloc_keylist h.
Proof.
  apply omap_total. intros k Hk.
  apply hash_keylist_elem in Hk as [v Hv]. by rewrite Hv.
Qed.

Lemma hash_entries_keys (h : hash_type) :
  (hash_entries h).*1 = hash_alloc_keylist h.
Proof.
  rewrite hash_entries_keylist, <- list_fmap_compose.
  apply list_fmap_id.
Qed.

Lemma hash_entries_elem (h : hash_type) (k v : string) :
  (k, v) ∈ hash_entries h ↔ hash_get h k = Some v.
Proof.
  rewrite hash_entries_keylist, list_elem_of_fmap. split.
  - intros [k' [[= -> ->] Hk']].
    apply hash_keylist_elem in Hk' as [v Hv]. by rewrite Hv.
  - intros Hv. exists k. rewrite Hv. split; [done|].
    apply hash_keylist_elem. eauto.
Qed.

Lemma emits_hash_get j (h : hash_type) (k v : string)
    (c : string → M unit) w :
  hash_get h k = Some v → emits j (c v) w →
  emits j (x ← hash_get_value h k; c x) w.
Proof.
  intros Hv Hc f. unfold mbind, M_bind, bind, hash_get_value.
  rewrite Hv. apply Hc.
Qed.

Lemma emits_hash j (id : string) (h : hash_type) :
  emits j (__fprintf_python_hash id h) (hash_writes id h).
Proof.
  unfold __fprintf_python_hash, hash_writes. cbv zeta.
  apply emits_fprintf, emits_fprintf.
  apply emits_seq; [|apply emits_fprintf, emits_ret].
  assert (length (pair_write <$> hash_entries h)
          = length (hash_alloc_keylist h)) as Hlen.
  { by rewrite hash_entries_keylist, !length_fmap. }
  rewrite hash_size_keylist, <- Hlen.
  apply emits_for. intros i t Ht.
  rewrite hash_entries_keylist, <- list_fmap_compose, list_lookup_fmap in Ht.
  destruct (hash_alloc_keylist h !! i) as [k|] eqn:Hk; [|done].
  injection Ht as <-.
  assert (is_Some (hash_get h k)) as [v Hv].
  { apply hash_keylist_elem. by eapply list_elem_of_lookup_2. }
  apply (emits_index j _ i k); [done|].
  apply (emits_index j _ i k); [done|].
  apply (emits_hash_get j h k v); [done|].
  cbn. rewrite Hv. apply emits_fprintf, emits_if_comma.
Qed.

Lemma emits_indent_rounds j (n : nat) (i : Z) :
  emits j (for_rounds n i (λ _, fprintf " ";; ret tt)) (replicate n " ").
Proof.
  revert i. induction n as [|n IH]; intros i; [apply emits_ret|].
  apply (emits_seq j _ _ [" "] (replicate n " ")); [|apply IH].
  apply emits_fprintf, emits_ret.
Qed.

Lemma emits_indent j (indent : Z) :
  emits j (__indent indent) (indent_writes indent).
Proof.
  unfold __indent, indent_writes, for_.
  rewrite Z.sub_0_r. apply emits_indent_rounds.
Qed.

Lemma emits_end_line j : emits j __end_line end_line_writes.
Proof. apply emits_fprintf, emits_ret. Qed.

(** The call on a descriptor whose array is counted right: it returns, has
    written the texts of [writes] and has left the descriptor as it was. *)
Lemma emits_record j : counted j → emits j ext_job_python_fprintf (writes j).
Proof.
  intros Hc. unfold ext_job_python_fprintf, writes.
  apply emits_fprintf.
  do 6 (emits_call emits_indent; apply emits_load;
        emits_call emits_string; emits_call emits_end_line).
  emits_call emits_indent. do 2 apply emits_load. rewrite Hc.
  emits_call emits_list. emits_call emits_end_line.
  emits_call emits_indent. apply emits_load.
  emits_call emits_hash. emits_call emits_end_line.
  emits_call emits_indent. apply emits_load.
  emits_call emits_hash.
  apply emits_fprintf, emits_ret.
Qed.

(** The texts of a call, put end to end, are the record of the
    specification. *)
Lemma text_of_writes j : text_of (writes j) = python_record j.
Proof.
  unfold writes, python_record, Spec.descriptor, Spec.record, Spec.field.
  change (text_of (" {" :: ?l)) with (" {" +:+ text_of l).
  unfold string_writes, list_writes, hash_writes, Spec.PyList,
    Spec.PyMapping, Spec.PyString.
  repeat rewrite text_of_app.
  repeat rewrite text_of_separated.
  replace (pair_write <$> hash_entries (environment j))
    with (Spec.PyPair <$> hash_entries (environment j)).
  2:{ apply list_fmap_ext. intros _ [k v] _.
      unfold pair_write, Spec.PyPair, Spec.PyString. cbn.
      by rewrite !string_app_assoc. }
  replace (pair_write <$> hash_entries (platform_exe j))
    with (Spec.PyPair <$> hash_entries (platform_exe j)).
  2:{ apply list_fmap_ext. intros _ [k v] _.
      unfold pair_write, Spec.PyPair, Spec.PyString. cbn.
      by rewrite !string_app_assoc. }
  change (text_of [?a; ?b]) with (a +:+ b +:+ "").
  change (text_of [?a]) with (a +:+ "").
  change (text_of (indent_writes 0)) with "".
  change (text_of (indent_writes 2)) with "  ".
  change (text_of end_line_writes) with ("," +:+ newline).
  repeat change (match ?v with
                 | Some s => dquote +:+ s +:+ dquote
                 | None => "None"
                 end) with (Spec.PyStringOrNone v).
  repeat rewrite string_app_assoc.
  repeat rewrite string_app_nil_r.
  reflexivity.
Qed.

(** On a stream with no fault to come, the call appends the record. *)
Lemma printer_sound j (buf : string) (e : bool) :
  counted j →
  ext_job_python_fprintf (mkMem j (mkFILE buf e []))
  = Some (tt, mkMem j (mkFILE (buf +:+ python_record j) e [])).
Proof.
  intros Hc. rewrite (emits_record j Hc), fwrite_all_sound.
  by rewrite text_of_writes.
Qed.

(** ** The counted array under the mutators *)

Lemma counted_alloc (p : Z) : counted (ext_job_alloc p).
Proof. done. Qed.

Lemma counted_call j (m : mutator) : counted j → counted (call j m).
Proof.
  unfold counted. destruct j, m; cbn; try done.
  intros ->. rewrite Nat2Z.id, firstn_all, length_app. cbn. lia.
Qed.

Lemma counted_calls j (ms : list mutator) : counted j → counted (calls j ms).
Proof.
  revert j. induction ms as [|m ms IH]; intros j Hj; [done|].
  apply IH. by apply counted_call.
Qed.

Lemma counted_reachable (p : Z) (cs : list mutator) :
  counted (calls (ext_job_alloc p) cs).
Proof. apply counted_calls, counted_alloc. Qed.

(** The array holds the arguments in the order of the calls that added
    them. *)
Lemma argv_calls j (cs : list mutator) :
  counted j → argv (calls j cs) = argv j ++ added_args cs.
Proof.
  revert j. induction cs as [|c cs IH]; intros j Hj.
  - by rewrite app_nil_r.
  - change (calls j (c :: cs)) with (calls (call j c) cs).
    rewrite IH by by apply counted_call.
    unfold counted in Hj. destruct j, c; cbn in *; try done.
    subst. by rewrite Nat2Z.id, firstn_all, <- app_assoc.
Qed.

Lemma added_args_AddArgument (args : list string) :
  added_args (AddArgument <$> args) = args.
Proof.
  unfold added_args. induction args as [|a args IH]; [done|].
  cbn. by rewrite IH.
Qed.

Lemma priority_calls j (cs : list mutator) :
  priority (calls j cs) = priority j.
Proof.
  revert j. induction cs as [|c cs IH]; intros j; [done|].
  change (calls j (c :: cs)) with (calls (call j c) cs).
  rewrite IH. by destruct j, c.
Qed.

Lemma calls_with_priority j (p : Z) (cs : list mutator) :
  calls (with_priority j p) cs = with_priority (calls j cs) p.
Proof.
  revert j. induction cs as [|c cs IH]; intros j; [done|].
  change (calls (call (with_priority j p) c) cs
          = with_priority (calls (call j c) cs) p).
  rewrite <- IH. f_equal. by destruct j, c.
Qed.

Lemma writes_with_priority j (p : Z) : writes (with_priority j p) = writes j.
Proof. by destruct j. Qed.

(** ** The mapping utility *)

Lemma hash_keylist_alloc : hash_alloc_keylist hash_alloc = [].
Proof.
  destruct (hash_alloc_keylist hash_alloc) as [|k l] eqn:E; [done|].
  assert (is_Some (hash_get hash_alloc k)) as [v Hv].
  { apply hash_keylist_elem. rewrite E. apply list_elem_of_here. }
  by rewrite hash_get_alloc in Hv.
Qed.

Lemma hash_entries_alloc : hash_entries hash_alloc = [].
Proof. unfold hash_entries. by rewrite hash_keylist_alloc. Qed.

Lemma NoDup_only {A} (a : A) (l : list A) :
  NoDup l → (∀ x, x ∈ l ↔ x = a) → l = [a].
Proof.
  intros Hnd Hl. destruct l as [|x l].
  - exfalso. eapply not_elem_of_nil. by apply (Hl a).
  - pose proof (proj1 (Hl x) (list_elem_of_here _ _)) as ->.
    f_equal. destruct l as [|y l]; [done|]. exfalso.
    pose proof (proj1 (Hl y)
      (list_elem_of_further _ _ _ (list_elem_of_here _ _))) as ->.
    apply NoDup_cons in Hnd as [Hnotin _]. apply Hnotin, list_elem_of_here.
Qed.

Lemma hash_entries_NoDup (h : hash_type) : NoDup (hash_entries h).*1.
Proof. rewrite hash_entries_keys. apply hash_keylist_NoDup. Qed.

(** A table holds one entry per key: the entries under a key are the one
    with the value [hash_get] returns. *)
Lemma hash_entries_filter (h : hash_type) (k v : string) :
  hash_get h k = Some v →
  filter (λ e, e.1 = k) (hash_entries h) = [(k, v)].
Proof.
  intros Hv. apply NoDup_only.
  - apply NoDup_filter. eapply NoDup_fmap_1, hash_entries_NoDup.
  - intros [k' v']. rewrite list_elem_of_filter, hash_entries_elem. cbn. split.
    + intros [-> Hv']. congruence.
    + intros [= -> ->]. done.
Qed.

Lemma hash_entries_insert_alloc (k v : string) :
  hash_entries (hash_insert_hash_owned_ref hash_alloc k v) = [(k, v)].
Proof.
  apply NoDup_only.
  - eapply NoDup_fmap_1, hash_entries_NoDup.
  - intros [k' v']. rewrite hash_entries_elem. split.
    + intros Hv'. destruct (decide (k = k')) as [<-|Hne].
      * rewrite hash_get_insert_eq in Hv'. congruence.
      * rewrite hash_get_insert_ne, hash_get_alloc in Hv' by done. done.
    + intros [= -> ->]. apply hash_get_insert_eq.
Qed.

(** ** The bytes of a call *)

Lemma Serialize_sound j : counted j → Serialize j = Some (python_record j).
Proof. intros Hc. unfold Serialize. by rewrite printer_sound. Qed.

(** * The claims *)

(** C1.  After [Create(10)], [SetPortableExe("/bin/eclipse")],
    [AddArgument("--version")], [AddEnvironmentVar("F_UFMTENDIAN","big")],
    [AddPlatformExe("x86_64","/local/eclipse.exe")] and
    [SetStdoutFile("eclipse.stdout")], the bytes the printer writes are those
    of the example record of the specification.  Each mapping holds one
    entry, so no enumeration order is left open; the statement holds for
    every mapping utility that meets the contract. *)
Theorem C1_example_record : Serialize example_job = Some example_record.
Proof.
  rewrite Serialize_sound by done.
  unfold python_record, example_job. cbn.
  by rewrite !hash_entries_insert_alloc.
Qed.

(** C2.  The record of any descriptor that [Create] and the mutators can
    build is laid out as nine fields in the order portable_exe, init_code,
    target_file, stdout, stderr, stdin, argList, environment, platform_exe;
    each of the first eight (so each of the first seven) is followed by a
    comma and a newline, and the last one, platform_exe, by no comma but the
    closing brace and a newline. *)
Theorem C2_field_separators (p : Z) (cs : list mutator) :
  let j := calls (ext_job_alloc p) cs in
  Serialize j = Some (
    " {" +:+ Spec.field "portable_exe" (Spec.PyStringOrNone (portable_exe j))
         +:+ "," +:+ newline +:+
    "  " +:+ Spec.field "init_code" (Spec.PyStringOrNone (init_code j))
         +:+ "," +:+ newline +:+
    "  " +:+ Spec.field "target_file" (Spec.PyStringOrNone (target_file j))
         +:+ "," +:+ newline +:+
    "  " +:+ Spec.field "stdout" (Spec.PyStringOrNone (stdout_file j))
         +:+ "," +:+ newline +:+
    "  " +:+ Spec.field "stderr" (Spec.PyStringOrNone (stderr_file j))
         +:+ "," +:+ newline +:+
    "  " +:+ Spec.field "stdin" (Spec.PyStringOrNone (stdin_file j))
         +:+ "," +:+ newline +:+
    "  " +:+ Spec.field "argList" (Spec.PyList (argv j))
         +:+ "," +:+ newline +:+
    "  " +:+ Spec.field "environment"
               (Spec.PyMapping (hash_entries (environment j)))
         +:+ "," +:+ newline +:+
    "  " +:+ Spec.field "platform_exe"
               (Spec.PyMapping (hash_entries (platform_exe j)))
         +:+ "}" +:+ newline).
Proof. intros j. apply Serialize_sound, counted_reachable. Qed.

(** C3.  For every priority [p], the descriptor [Create(p)] returns prints
    with [None] in each of the six optional fields, [[]] as its argList and
    [{}] as each of its two mappings. *)
Theorem C3_fresh_descriptor (p : Z) :
  Serialize (ext_job_alloc p) = Some empty_record.
Proof.
  rewrite Serialize_sound by apply counted_alloc.
  unfold python_record. cbn. by rewrite hash_entries_alloc.
Qed.

(** C4.  On a descriptor with any history of calls, after a sequence of
    [AddArgument] calls the argList of the record is the bracketed,
    comma-separated list of the double-quoted arguments in call order: those
    the history added, then the new ones, one item per call, duplicates and
    empty strings included; with no argument at all it is [[]]. *)
Theorem C4_arguments_in_call_order (p : Z) (cs : list mutator)
    (args : list string) :
  let j := calls (calls (ext_job_alloc p) cs) (AddArgument <$> args) in
  Serialize j
  = Some (Spec.descriptor
            (portable_exe j) (init_code j) (target_file j)
            (stdout_file j) (stderr_file j) (stdin_file j)
            (added_args cs ++ args)
            (hash_entries (environment j)) (hash_entries (platform_exe j)))
  ∧ Spec.PyList (added_args cs ++ args)
    = "[" +:+ String.concat "," ((λ a, dquote +:+ a +:+ dquote)
                                  <$> (added_args cs ++ args)) +:+ "]"
  ∧ Spec.PyList [] = "[]".
Proof.
  intros j. split; [|done].
  rewrite Serialize_sound.
  - unfold python_record. do 2 f_equal. unfold j.
    rewrite !argv_calls, added_args_AddArgument;
      auto using counted_alloc, counted_reachable.
  - apply counted_calls, counted_reachable.
Qed.

(** C5.  On any descriptor, after [AddEnvironmentVar(k, v1)] and then
    [AddEnvironmentVar(k, v2)] the environment mapping of the record has
    exactly one entry for [k], its value is [v2], and no key occurs twice. *)
Theorem C5_environment_replaces (p : Z) (cs : list mutator)
    (k v1 v2 : string) :
  let j0 := calls (ext_job_alloc p) cs in
  let j := ext_job_add_environment (ext_job_add_environment j0 k v1) k v2 in
  let env := hash_entries (environment j) in
  Serialize j
  = Some (Spec.descriptor
            (portable_exe j0) (init_code j0) (target_file j0)
            (stdout_file j0) (stderr_file j0) (stdin_file j0)
            (argv j0) env (hash_entries (platform_exe j0)))
  ∧ filter (λ e, e.1 = k) env = [(k, v2)]
  ∧ NoDup env.*1.
Proof.
  intros j0 j env.
  assert (counted j0) as Hc by apply counted_reachable.
  unfold env, j. clearbody j0. clear j env. split; [|split].
  - rewrite Serialize_sound.
    + by destruct j0.
    + apply (counted_call _ (AddEnvironmentVar k v2)).
      by apply (counted_call _ (AddEnvironmentVar k v1)).
  - apply hash_entries_filter. destruct j0. cbn. apply hash_get_insert_eq.
  - apply hash_entries_NoDup.
Qed.

(** C6.  For each of the six setters, on any descriptor, two calls with [a]
    and then [b] leave a record whose field for that setter is [b] in double
    quotes and whose other fields are those of the descriptor before the two
    calls. *)
Theorem C6_last_write_wins (p : Z) (cs : list mutator) (a b : string) :
  let j := calls (ext_job_alloc p) cs in
  let env := hash_entries (environment j) in
  let plat := hash_entries (platform_exe j) in
  Serialize (ext_job_set_portable_exe (ext_job_set_portable_exe j a) b)
  = Some (Spec.descriptor (Some b) (init_code j) (target_file j)
            (stdout_file j) (stderr_file j) (stdin_file j) (argv j) env plat)
  ∧ Serialize (ext_job_set_init_code (ext_job_set_init_code j a) b)
  = Some (Spec.descriptor (portable_exe j) (Some b) (target_file j)
            (stdout_file j) (stderr_file j) (stdin_file j) (argv j) env plat)
  ∧ Serialize (ext_job_set_target_file (ext_job_set_target_file j a) b)
  = Some (Spec.descriptor (portable_exe j) (init_code j) (Some b)
            (stdout_file j) (stderr_file j) (stdin_file j) (argv j) env plat)
  ∧ Serialize (ext_job_set_stdout_file (ext_job_set_stdout_file j a) b)
  = Some (Spec.descriptor (portable_exe j) (init_code j) (target_file j)
            (Some b) (stderr_file j) (stdin_file j) (argv j) env plat)
  ∧ Serialize (ext_job_set_stderr_file (ext_job_set_stderr_file j a) b)
  = Some (Spec.descriptor (portable_exe j) (init_code j) (target_file j)
            (stdout_file j) (Some b) (stdin_file j) (argv j) env plat)
  ∧ Serialize (ext_job_set_stdin_file (ext_job_set_stdin_file j a) b)
  = Some (Spec.descriptor (portable_exe j) (init_code j) (target_file j)
            (stdout_file j) (stderr_file j) (Some b) (argv j) env plat)
  ∧ Spec.PyStringOrNone (Some b) = dquote +:+ b +:+ dquote.
Proof.
  intros j env plat.
  assert (counted j) as Hc by apply counted_reachable.
  unfold env, plat. clearbody j. clear env plat.
  assert (∀ m1 m2 : mutator, counted (call (call j m1) m2)) as Hcc.
  { intros m1 m2. by do 2 apply counted_call. }
  repeat split;
    match goal with
    | |- Serialize (?set (?set j a) b) = _ =>
        rewrite Serialize_sound; [by destruct j|]
    end.
  - apply (Hcc (SetPortableExe a) (SetPortableExe b)).
  - apply (Hcc (SetInitCode a) (SetInitCode b)).
  - apply (Hcc (SetTargetFile a) (SetTargetFile b)).
  - apply (Hcc (SetStdoutFile a) (SetStdoutFile b)).
  - apply (Hcc (SetStderrFile a) (SetStderrFile b)).
  - apply (Hcc (SetStdinFile a) (SetStdinFile b)).
Qed.

(** C7.  On any descriptor and any stream, a call of the printer returns
    and leaves the descriptor as it was; on a stream that accepts every
    write, two calls in a row each append the same bytes. *)
Theorem C7_serialize_twice (p : Z) (cs : list mutator) (buf : string)
    (e : bool) :
  let j := calls (ext_job_alloc p) cs in
  let out := python_record j in
  (∀ f, ∃ f', ext_job_python_fprintf (mkMem j f) = Some (tt, mkMem j f'))
  ∧ ext_job_python_fprintf (mkMem j (mkFILE buf e []))
    = Some (tt, mkMem j (mkFILE (buf +:+ out) e []))
  ∧ ext_job_python_fprintf (mkMem j (mkFILE (buf +:+ out) e []))
    = Some (tt, mkMem j (mkFILE ((buf +:+ out) +:+ out) e []))
  ∧ (ext_job_python_fprintf;; ext_job_python_fprintf)
      (mkMem j (mkFILE buf e []))
    = Some (tt, mkMem j (mkFILE ((buf +:+ out) +:+ out) e [])).
Proof.
  intros j out.
  assert (counted j) as Hc by apply counted_reachable.
  repeat split.
  - intros f. eexists. by apply emits_record.
  - by apply printer_sound.
  - by apply printer_sound.
  - unfold mbind, M_bind, bind. by rewrite !printer_sound.
Qed.

(** C8, as the code has it.  On any descriptor and any stream, whatever
    writes fail, a call of the printer returns normally, with no value, after
    it has attempted every one of its writes; the error indicator of the
    stream afterwards is the one before, raised if one of these writes
    failed, and it is never lowered.  Every mutator returns, with a
    descriptor whose array is counted right. *)
Theorem C8_no_failure_path (p : Z) (cs : list mutator) (f : FILE) :
  let j := calls (ext_job_alloc p) cs in
  let f' := fwrite_all f (writes j) in
  ext_job_python_fprintf (mkMem j f) = Some (tt, mkMem j f')
  ∧ faults f' = drop (length (writes j)) (faults f)
  ∧ error f'
    = error f || existsb id (take (length (writes j)) (faults f))
  ∧ ∀ m : mutator, counted (call j m).
Proof.
  intros j f'. split; [|split; [|split]].
  - apply emits_record, counted_reachable.
  - apply fwrite_all_faults.
  - apply fwrite_all_faults.
  - intros m. apply counted_call, counted_reachable.
Qed.

(** C9.  Two descriptors built by the same calls from [Create(p1)] and
    [Create(p2)] hold their own priority and differ in nothing else, and on
    any stream the printer writes the same for both. *)
Theorem C9_priority_not_printed (p1 p2 : Z) (cs : list mutator) (f : FILE) :
  let j1 := calls (ext_job_alloc p1) cs in
  let j2 := calls (ext_job_alloc p2) cs in
  priority j1 = p1 ∧ priority j2 = p2 ∧ j2 = with_priority j1 p2
  ∧ (∃ f', ext_job_python_fprintf (mkMem j1 f) = Some (tt, mkMem j1 f')
           ∧ ext_job_python_fprintf (mkMem j2 f) = Some (tt, mkMem j2 f'))
  ∧ Serialize j1 = Serialize j2.
Proof.
  intros j1 j2.
  assert (j2 = with_priority j1 p2) as E.
  { unfold j1, j2. by rewrite <- calls_with_priority. }
  assert (writes j2 = writes j1) as Hw.
  { rewrite E. apply writes_with_priority. }
  assert (counted j1) as H1 by apply counted_reachable.
  assert (counted j2) as H2 by apply counted_reachable.
  split; [apply priority_calls|]. split; [apply priority_calls|].
  split; [done|]. split.
  - exists (fwrite_all f (writes j1)). split.
    + by apply emits_record.
    + rewrite <- Hw. by apply emits_record.
  - unfold Serialize.
    by rewrite (emits_record j1 H1), (emits_record j2 H2), Hw.
Qed.

(** C10.  A mutator leaves every part of the descriptor other than its own
    as it was: a setter changes its optional string only, [AddArgument] the
    argument sequence only, [AddPlatformExe] and [AddEnvironmentVar] their
    mapping only; no mutator changes the priority. *)
Theorem C10_frame (j : ext_job_struct) (m : mutator) :
  priority (call j m) = priority j
  ∧ ∀ x : part, x ≠ target m → same_part x j (call j m).
Proof.
  split; [by destruct j, m|].
  intros x Hx. destruct j, m, x; cbn; try done; by destruct Hx.
Qed.

End Printer.

(** * Concrete runs, with [gmap] as the mapping utility *)

(** The example of the specification, run. *)
Example example_gmap :
  ext_job_python_fprintf (mkMem example_job (mkFILE "" false []))
  = Some (tt, mkMem example_job (mkFILE example_record false [])).
Proof. vm_compute. reflexivity. Qed.

(** Four calls of [AddArgument], one with the empty string and one with an
    argument given before. *)
Example arguments_gmap :
  Serialize (calls (ext_job_alloc 0)
               [AddArgument "-v"; AddArgument ""; AddArgument "-v";
                AddArgument "x y"])
  = Some (Spec.descriptor None None None None None None
            ["-v"; ""; "-v"; "x y"] [] []).
Proof. vm_compute. reflexivity. Qed.

(** The enumeration order is the table's own: with [gmap], a key inserted
    second can come first. *)
Example keylist_order_gmap :
  hash_alloc_keylist
    (hash_insert_hash_owned_ref
       (hash_insert_hash_owned_ref hash_alloc "F_UFMTENDIAN" "big") "A" "b")
  = ["A"; "F_UFMTENDIAN"].
Proof. vm_compute. reflexivity. Qed.

(** C8, as stated, fails.  The stream fails on the first write of the call
    ([fprintf] returns a negative value and raises the error indicator), yet
    the call does not fail: it returns normally, as it does on a sound
    stream, and has gone on to write the rest of the record. *)
Lemma C8_counterexample :
  let f := mkFILE "" false [true] in
  (fwrite_string f " {").2 = -1
  ∧ ext_job_python_fprintf (mkMem (ext_job_alloc 10) f)
    = Some (tt, mkMem (ext_job_alloc 10)
                  (mkFILE
                     (dquote +:+ "portable_exe" +:+ dquote +:+ " : None,"
                        +:+ newline +:+
                      "  " +:+ dquote +:+ "init_code" +:+ dquote +:+ " : None,"
                        +:+ newline +:+
                      "  " +:+ dquote +:+ "target_file" +:+ dquote +:+ " : None,"
                        +:+ newline +:+
                      "  " +:+ dquote +:+ "stdout" +:+ dquote +:+ " : None,"
                        +:+ newline +:+
                      "  " +:+ dquote +:+ "stderr" +:+ dquote +:+ " : None,"
                        +:+ newline +:+
                      "  " +:+ dquote +:+ "stdin" +:+ dquote +:+ " : None,"
                        +:+ newline +:+
                      "  " +:+ dquote +:+ "argList" +:+ dquote +:+ " : [],"
                        +:+ newline +:+
                      "  " +:+ dquote +:+ "environment" +:+ dquote +:+ " : {},"
                        +:+ newline +:+
                      "  " +:+ dquote +:+ "platform_exe" +:+ dquote +:+ " : {}}"
                        +:+ newline)
                     true [])).
Proof. split; vm_compute; reflexivity. Qed.

(** C10 at a concrete call: adding an argument leaves the portable
    executable of a descriptor as it was. *)
Lemma C10_frame_witness :
  PortableExe ≠ target (AddArgument "--version")
  ∧ same_part PortableExe
      (ext_job_set_portable_exe (ext_job_alloc 10) "/bin/eclipse")
      (call (ext_job_set_portable_exe (ext_job_alloc 10) "/bin/eclipse")
         (AddArgument "--version")).
Proof.
  split; [discriminate|].
  apply (C10_frame
    (ext_job_set_portable_exe (ext_job_alloc 10) "/bin/eclipse")
    (AddArgument "--version")).
  discriminate.
Defined.

(** * Further properties of the code *)

Section Extras.
Context `{Hash}.
Implicit Types (j : ext_job_struct) (w : list string).

(** ** The printing functions on their own *)

Lemma text_of_list_writes (id : string) (l : list string) :
  text_of (list_writes id l) = Spec.field id (Spec.PyList l).
Proof.
  unfold list_writes, Spec.field, Spec.PyList, Spec.PyString.
  rewrite !text_of_app, text_of_separated.
  change (text_of [?a; ?b]) with (a +:+ b +:+ "").
  change (text_of [?a]) with (a +:+ "").
  by rewrite !string_app_assoc, !string_app_nil_r.
Qed.

Lemma emits_list_prefix j (id : string) (l : list string) (size : Z) :
  size ≤ Z.of_nat (length l) →
  emits j (__fprintf_python_list id l size)
    (list_writes id (take (Z.to_nat size) l)).
Proof.
  intros Hsize. unfold __fprintf_python_list, list_writes.
  apply emits_fprintf, emits_fprintf.
  apply emits_seq; [|apply emits_fprintf, emits_ret].
  destruct (decide (size < 0)) as [Hneg|Hpos].
  - unfold for_. replace (Z.to_nat (size - 0)) with 0%nat by lia.
    replace (Z.to_nat size) with 0%nat by lia. apply emits_ret.
  - set (n := Z.to_nat size).
    set (texts := (λ s, dquote +:+ s +:+ dquote) <$> take n l).
    assert (length texts = n) as Hlen.
    { unfold texts. rewrite length_fmap, length_take. lia. }
    replace size with (Z.of_nat (length texts)) by lia.
    apply emits_for. intros i t Ht. unfold texts in Ht.
    rewrite list_lookup_fmap in Ht.
    destruct (take n l !! i) as [x|] eqn:Hx; [|done]. injection Ht as <-.
    apply lookup_take_Some in Hx as [Hx _].
    apply (emits_index j l i x); [done|].
    apply emits_fprintf, emits_if_comma.
Qed.

(** X1.  [__fprintf_python_list] prints the first [size] elements of the
    array it is given, and no element at all when [size] is zero or
    negative. *)
Theorem list_prints_first_size j (id : string) (l : list string) (size : Z)
    (buf : string) (e : bool) :
  size ≤ Z.of_nat (length l) →
  __fprintf_python_list id l size (mkMem j (mkFILE buf e []))
  = Some (tt, mkMem j (mkFILE
       (buf +:+ Spec.field id (Spec.PyList (take (Z.to_nat size) l))) e [])).
Proof.
  intros Hsize.
  rewrite (emits_list_prefix j id l size Hsize), fwrite_all_sound.
  by rewrite text_of_list_writes.
Qed.



Lemma text_of_spaces (n : nat) : text_of (replicate n " ") = spaces n.
Proof.
  induction n as [|n IH]; [done|].
  change (" " +:+ text_of (replicate n " ") = String " "%char (spaces n)).
  by rewrite IH.
Qed.

Lemma length_spaces (n : nat) : String.length (spaces n) = n.
Proof. induction n as [|n IH]; [done|]. cbn. by rewrite IH. Qed.

(** X3.  [__indent] writes one space per unit of [indent], and nothing when
    [indent] is zero or negative. *)
Theorem indent_writes_spaces j (indent : Z) (buf : string) (e : bool) :
  __indent indent (mkMem j (mkFILE buf e []))
  = Some (tt, mkMem j (mkFILE (buf +:+ spaces (Z.to_nat indent)) e []))
  ∧ Z.of_nat (String.length (spaces (Z.to_nat indent))) = Z.max 0 indent.
Proof.
  split.
  - rewrite (emits_indent j indent), fwrite_all_sound.
    unfold indent_writes. by rewrite text_of_spaces.
  - rewrite length_spaces. lia.
Qed.

(** ** Strings are printed as they are *)

Lemma concat_join_last (sep x y : string) (l : list string) :
  String.concat sep (l ++ [x +:+ sep +:+ y]) = String.concat sep (l ++ [x; y]).
Proof.
  induction l as [|z l IH]; [done|].
  change ((z :: l) ++ ?r) with (z :: (l ++ r)).
  destruct l as [|z' l]; [done|].
  change (z +:+ sep +:+ String.concat sep ((z' :: l) ++ [x +:+ sep +:+ y])
          = z +:+ sep +:+ String.concat sep ((z' :: l) ++ [x; y])).
  by rewrite IH.
Qed.

Lemma PyList_join_last (a b : string) (l : list string) :
  Spec.PyList (l ++ [a +:+ dquote +:+ "," +:+ dquote +:+ b])
  = Spec.PyList (l ++ [a; b]).
Proof.
  unfold Spec.PyList. rewrite !fmap_app.
  change (Spec.PyString <$> [a; b]) with [Spec.PyString a; Spec.PyString b].
  rewrite <- concat_join_last.
  change (Spec.PyString <$> [?x]) with [Spec.PyString x].
  unfold Spec.PyString. by rewrite !string_app_assoc.
Qed.

Lemma calls_snoc j (cs : list mutator) (m : mutator) :
  calls j (cs ++ [m]) = call (calls j cs) m.
Proof. unfold calls. by rewrite foldl_app. Qed.

(** X4.  Nothing is escaped: an argument with a double quote, a comma and a
    double quote in it is printed like two arguments.  On any descriptor, the
    call [AddArgument] with [a","b] and the two calls with [a] and with [b]
    lead to descriptors with different argument counts and the same
    record. *)
Theorem quote_in_argument_not_escaped (p : Z) (cs : list mutator)
    (a b : string) :
  let j1 := calls (ext_job_alloc p)
              (cs ++ [AddArgument (a +:+ dquote +:+ "," +:+ dquote +:+ b)]) in
  let j2 := calls (ext_job_alloc p) (cs ++ [AddArgument a; AddArgument b]) in
  argc j2 = argc j1 + 1
  ∧ Serialize j1 = Serialize j2
  ∧ is_Some (Serialize j1).
Proof.
  intros j1 j2.
  assert (counted j1 ∧ counted j2) as [H1 H2]
    by (split; apply counted_reachable).
  unfold j1, j2 in *. clear j1 j2.
  change [AddArgument a; AddArgument b]
    with ([AddArgument a] ++ [AddArgument b]) in *.
  rewrite app_assoc, !calls_snoc in *.
  assert (counted (calls (ext_job_alloc p) cs)) as Hc
    by apply counted_reachable.
  destruct (calls (ext_job_alloc p) cs)
    as [pr pe ic tf so si se av ac pl en].
  unfold counted in Hc. cbn in Hc. subst ac.
  rewrite !Serialize_sound by done.
  split; [cbn; lia|]. split; [|eauto].
  f_equal. unfold python_record. cbn.
  rewrite Nat2Z.id, firstn_all.
  replace (Z.to_nat (Z.of_nat (length av) + 1))
    with (length (av ++ [util_alloc_string_copy a]))
    by (rewrite length_app; cbn; lia).
  rewrite firstn_all, <- app_assoc. unfold util_alloc_string_copy.
  unfold Spec.descriptor. by rewrite PyList_join_last.
Qed.

Lemma string_app_cons (c : ascii) (s t : string) :
  String c s +:+ t = String c (s +:+ t).
Proof. reflexivity. Qed.

Lemma quote_free_cons (c : ascii) (s : string) :
  quote_free (String c s) = true → c ≠ "034"%char ∧ quote_free s = true.
Proof.
  cbn. intros [Hc Hs]%andb_true_iff. split; [|done].
  apply negb_true_iff in Hc. by apply Ascii.eqb_neq.
Qed.

(** Two texts that agree and both start with a quote-free string and a
    double quote agree on that string and on what follows. *)
Lemma split_at_quote (x y r r' : string) :
  quote_free x = true → quote_free y = true →
  x +:+ dquote +:+ r = y +:+ dquote +:+ r' → x = y ∧ r = r'.
Proof.
  revert y. induction x as [|c x IH]; intros [|d y] Hx Hy E.
  - change (String "034"%char r = String "034"%char r') in E.
    by injection E as ->.
  - apply quote_free_cons in Hy as [Hd _].
    change (String "034"%char r = String d (y +:+ dquote +:+ r')) in E.
    injection E as E _. by destruct Hd.
  - apply quote_free_cons in Hx as [Hc _].
    change (String c (x +:+ dquote +:+ r) = String "034"%char r') in E.
    injection E as E _. by destruct Hc.
  - apply quote_free_cons in Hx as [_ Hx].
    apply quote_free_cons in Hy as [_ Hy].
    rewrite !string_app_cons in E. injection E as -> E.
    by destruct (IH y Hx Hy E) as [-> ->].
Qed.

Lemma concat_cons_app (sep x t : string) (l : list string) :
  String.concat sep (x :: l) +:+ t
  = x +:+ match l with
          | [] => t
          | _ => sep +:+ String.concat sep l +:+ t
          end.
Proof.
  destruct l as [|y l]; [done|].
  change (String.concat sep (x :: y :: l))
    with (x +:+ sep +:+ String.concat sep (y :: l)).
  by rewrite !string_app_assoc.
Qed.

(** The items of a printed list of quote-free strings, up to the closing
    bracket, determine the list. *)
Lemma PyList_items_inj (l1 l2 : list string) (t1 t2 : string) :
  Forall (λ s, quote_free s = true) l1 →
  Forall (λ s, quote_free s = true) l2 →
  String.concat "," (Spec.PyString <$> l1) +:+ "]" +:+ t1
  = String.concat "," (Spec.PyString <$> l2) +:+ "]" +:+ t2 →
  l1 = l2.
Proof.
  intros H1. revert l2. induction H1 as [|x l1 Hx H1 IH];
    intros l2 H2 E; destruct H2 as [|y l2 Hy H2]; [done| | |].
  - rewrite fmap_cons, concat_cons_app in E. discriminate E.
  - rewrite fmap_cons, concat_cons_app in E. discriminate E.
  - rewrite !fmap_cons, !concat_cons_app in E.
    unfold Spec.PyString in E. rewrite !string_app_assoc in E.
    injection E as E.
    apply split_at_quote in E as [-> E]; [|done..].
    f_equal. destruct l1 as [|x1 l1], l2 as [|y1 l2]; [done| | |].
    + discriminate E.
    + discriminate E.
    + injection E as E. by apply (IH (y1 :: l2)).
Qed.

(** X5.  When no argument holds a double quote, what
    [__fprintf_python_list] writes determines the arguments: two arrays of
    quote-free strings printed alike are the same array. *)
Theorem quote_free_list_determined j (id : string) (l1 l2 : list string)
    (buf : string) (e : bool) :
  Forall (λ s, quote_free s = true) l1 →
  Forall (λ s, quote_free s = true) l2 →
  __fprintf_python_list id l1 (Z.of_nat (length l1)) (mkMem j (mkFILE buf e []))
  = __fprintf_python_list id l2 (Z.of_nat (length l2))
      (mkMem j (mkFILE buf e [])) →
  l1 = l2.
Proof.
  intros H1 H2 E.
  rewrite !list_prints_first_size, !Nat2Z.id, !firstn_all in E by lia.
  injection E as E.
  apply (inj (String.app buf)) in E.
  unfold Spec.field in E.
  apply (inj (String.app _)), (inj (String.app _)) in E.
  unfold Spec.PyList in E. apply (inj (String.app _)) in E.
  by apply (PyList_items_inj l1 l2 "" "").
Qed.

(** ** Calls in sequence *)

(** X6.  Two mutators with different targets can be called in either order:
    the descriptor afterwards is the same. *)
Theorem mutators_commute j (m1 m2 : mutator) :
  target m1 ≠ target m2 → call (call j m1) m2 = call (call j m2) m1.
Proof.
  intros Hne. destruct j, m1, m2; cbn in *; try done; by destruct Hne.
Qed.

(** X7.  [argc] counts the calls of [AddArgument]: on a descriptor built by
    [Create] and any calls it is the number of those calls and the number of
    slots of [argv]. *)
Theorem argc_counts_added_arguments (p : Z) (cs : list mutator) :
  let j := calls (ext_job_alloc p) cs in
  argc j = Z.of_nat (length (added_args cs))
  ∧ length (argv j) = length (added_args cs).
Proof.
  intros j.
  assert (argv j = added_args cs) as E.
  { unfold j. by rewrite argv_calls by apply counted_alloc. }
  split; [|by rewrite E].
  rewrite <- E. apply counted_reachable.
Qed.

Lemma last_omap_snoc {A B} (g : A → option B) (l : list A) (a : A) :
  last (omap g (l ++ [a]))
  = match g a with
    | Some b => Some b
    | None => last (omap g l)
    end.
Proof.
  rewrite omap_app. cbn. destruct (g a) as [b|].
  - apply last_snoc.
  - by rewrite app_nil_r.
Qed.

(** X8.  An optional string of a descriptor is what the last call of its
    setter passed, whatever other calls were made before or after, and it is
    unset exactly as long as its setter has not been called. *)
Theorem optional_fields_hold_last_set (p : Z) (cs : list mutator) :
  let j := calls (ext_job_alloc p) cs in
  portable_exe j = last_set PortableExe cs
  ∧ init_code j = last_set InitCode cs
  ∧ target_file j = last_set TargetFile cs
  ∧ stdout_file j = last_set StdoutFile cs
  ∧ stderr_file j = last_set StderrFile cs
  ∧ stdin_file j = last_set StdinFile cs.
Proof.
  cbv zeta. induction cs as [|c cs IH] using rev_ind; [done|].
  rewrite calls_snoc. unfold last_set. rewrite !last_omap_snoc.
  fold (last_set PortableExe cs) (last_set InitCode cs)
    (last_set TargetFile cs) (last_set StdoutFile cs)
    (last_set StderrFile cs) (last_set StdinFile cs).
  destruct IH as (<- & <- & <- & <- & <- & <-).
  by destruct (calls (ext_job_alloc p) cs), c.
Qed.

Lemma environment_call j (m : mutator) :
  environment (call j m)
  = match added_entry Environment m with
    | Some e => hash_insert_hash_owned_ref (environment j) e.1 e.2
    | None => environment j
    end.
Proof. by destruct j, m. Qed.

Lemma platform_exe_call j (m : mutator) :
  platform_exe (call j m)
  = match added_entry PlatformExe m with
    | Some e => hash_insert_hash_owned_ref (platform_exe j) e.1 e.2
    | None => platform_exe j
    end.
Proof. by destruct j, m. Qed.

Lemma hash_get_insert (h : hash_type) (k k' v : string) :
  hash_get (hash_insert_hash_owned_ref h k' v) k
  = if decide (k' = k) then Some v else hash_get h k.
Proof.
  destruct (decide (k' = k)) as [->|Hne].
  - apply hash_get_insert_eq.
  - by apply hash_get_insert_ne.
Qed.

(** The tables of a descriptor hold, under a key, the value of the last call
    that added the key. *)
Lemma tables_hold_last_added (p : Z) (cs : list mutator) (k : string) :
  hash_get (environment (calls (ext_job_alloc p) cs)) k
  = last_added Environment cs k
  ∧ hash_get (platform_exe (calls (ext_job_alloc p) cs)) k
    = last_added PlatformExe cs k.
Proof.
  induction cs as [|c cs [IHe IHp]] using rev_ind.
  - split; apply hash_get_alloc.
  - rewrite calls_snoc, environment_call, platform_exe_call.
    unfold last_added. rewrite !last_omap_snoc.
    fold (last_added Environment cs k) (last_added PlatformExe cs k).
    rewrite <- IHe, <- IHp. split.
    + destruct (added_entry Environment c) as [[k' v]|]; [|done].
      rewrite hash_get_insert. cbn. by destruct (decide (k' = k)).
    + destruct (added_entry PlatformExe c) as [[k' v]|]; [|done].
      rewrite hash_get_insert. cbn. by destruct (decide (k' = k)).
Qed.

(** X9.  The entries printed for a mapping are, for each key that a call has
    added, the key once with the value of the last call that added it, and
    nothing else: calls on the other mapping and earlier values of the key
    leave no entry. *)
Theorem mappings_hold_last_added (p : Z) (cs : list mutator) :
  let j := calls (ext_job_alloc p) cs in
  (∀ k v, (k, v) ∈ hash_entries (environment j)
          ↔ last_added Environment cs k = Some v)
  ∧ (∀ k v, (k, v) ∈ hash_entries (platform_exe j)
            ↔ last_added PlatformExe cs k = Some v)
  ∧ NoDup (hash_entries (environment j)).*1
  ∧ NoDup (hash_entries (platform_exe j)).*1.
Proof.
  cbv zeta. split; [|split; [|split]]; try apply hash_entries_NoDup.
  - intros k v. rewrite hash_entries_elem.
    by rewrite (proj1 (tables_hold_last_added p cs k)).
  - intros k v. rewrite hash_entries_elem.
    by rewrite (proj2 (tables_hold_last_added p cs k)).
Qed.

End Extras.

Section ExtrasFields.
Context `{Hash}.
Implicit Types (j : ext_job_struct).

(** ** The printers of a mapping and of an optional string *)

Lemma text_of_hash_writes (id : string) (h : hash_type) :
  text_of (hash_writes id h) = Spec.field id (Spec.PyMapping (hash_entries h)).
Proof.
  unfold hash_writes, Spec.field, Spec.PyMapping, Spec.PyString.
  rewrite !text_of_app, text_of_separated.
  replace (pair_write <$> hash_entries h)
    with (Spec.PyPair <$> hash_entries h).
  2:{ apply list_fmap_ext. intros _ [k v] _.
      unfold pair_write, Spec.PyPair, Spec.PyString. cbn.
      by rewrite !string_app_assoc. }
  change (text_of [?a; ?b]) with (a +:+ b +:+ "").
  change (text_of [?a]) with (a +:+ "").
  by rewrite !string_app_assoc, !string_app_nil_r.
Qed.

(** X10.  On any table, [__fprintf_python_hash] returns: it looks up only
    keys of the key list, which the table holds.  It prints one pair per key
    of the key list, in that order, [hash_get_size] pairs in all. *)
Theorem hash_prints_every_entry j (id : string) (h : hash_type)
    (buf : string) (e : bool) :
  __fprintf_python_hash id h (mkMem j (mkFILE buf e []))
  = Some (tt, mkMem j (mkFILE
       (buf +:+ Spec.field id (Spec.PyMapping (hash_entries h))) e []))
  ∧ (hash_entries h).*1 = hash_alloc_keylist h
  ∧ Z.of_nat (length (hash_entries h)) = hash_get_size h.
Proof.
  split; [|split].
  - rewrite (emits_hash j id h), fwrite_all_sound.
    by rewrite text_of_hash_writes.
  - apply hash_entries_keys.
  - by rewrite hash_size_keylist, <- hash_entries_keys, length_fmap.
Qed.

Lemma string_length_app (a b : string) :
  String.length (a +:+ b) = (String.length a + String.length b)%nat.
Proof.
  induction a as [|c a IH]; [done|].
  rewrite string_app_cons. cbn. by rewrite IH.
Qed.

Lemma string_app_inj_r (a b t : string) : a +:+ t = b +:+ t → a = b.
Proof.
  revert b. induction a as [|c a IH]; intros [|d b] E.
  - done.
  - apply (f_equal String.length) in E.
    rewrite !string_length_app in E. cbn in E. lia.
  - apply (f_equal String.length) in E.
    rewrite !string_length_app in E. cbn in E. lia.
  - rewrite !string_app_cons in E. injection E as -> E.
    by rewrite (IH b E).
Qed.

(** X11.  What [__fprintf_python_string] writes for a field determines the
    field: an unset field, printed [None], and a field set to any string,
    printed between double quotes, never print alike, and two strings that
    print alike are the same. *)
Theorem optional_string_determined j (id : string) (v1 v2 : option string)
    (buf : string) (e : bool) :
  __fprintf_python_string id v1 (mkMem j (mkFILE buf e []))
  = __fprintf_python_string id v2 (mkMem j (mkFILE buf e [])) →
  v1 = v2.
Proof.
  intros E. rewrite !emits_string, !fwrite_all_sound in E.
  injection E as E. apply (inj (String.app buf)) in E.
  unfold string_writes in E.
  change (text_of [?a; ?b]) with (a +:+ b +:+ "") in E.
  apply (inj (String.app _)) in E.
  rewrite !string_app_nil_r in E.
  destruct v1 as [a|], v2 as [b|]; [|discriminate E|discriminate E|done].
  apply (inj (String.app dquote)), string_app_inj_r in E. by subst.
Qed.

End ExtrasFields.

(** * The further properties at concrete inputs, with [gmap] *)

(** X1 with a size below the number of elements. *)
Lemma list_prints_first_size_witness :
  2 ≤ Z.of_nat (length ["-a"; "-b"; "-c"])
  ∧ __fprintf_python_list "argList" ["-a"; "-b"; "-c"] 2
      (mkMem (ext_job_alloc 0) (mkFILE "" false []))
    = Some (tt, mkMem (ext_job_alloc 0) (mkFILE
         ("" +:+ Spec.field "argList"
                   (Spec.PyList (take (Z.to_nat 2) ["-a"; "-b"; "-c"])))
         false [])).
Proof.
  split; [vm_compute; discriminate|].
  apply (list_prints_first_size (ext_job_alloc 0) "argList"
           ["-a"; "-b"; "-c"] 2 "" false).
  vm_compute. discriminate.
Defined.


(** X5 on an array of two quote-free arguments. *)
Lemma quote_free_list_determined_witness :
  Forall (λ s, quote_free s = true) ["-a"; "x y"]
  ∧ ["-a"; "x y"] = ["-a"; "x y"].
Proof.
  assert (Forall (λ s, quote_free s = true) ["-a"; "x y"]) as Hqf.
  { repeat constructor. }
  split; [exact Hqf|].
  apply (quote_free_list_determined (ext_job_alloc 0) "argList"
           ["-a"; "x y"] ["-a"; "x y"] "" false Hqf Hqf).
  reflexivity.
Defined.

(** X6 for a setter and [AddArgument]. *)
Lemma mutators_commute_witness :
  target (SetStdoutFile "eclipse.stdout") ≠ target (AddArgument "--version")
  ∧ call (call (ext_job_alloc 10) (SetStdoutFile "eclipse.stdout"))
      (AddArgument "--version")
    = call (call (ext_job_alloc 10) (AddArgument "--version"))
        (SetStdoutFile "eclipse.stdout").
Proof.
  split; [discriminate|].
  apply (mutators_commute (ext_job_alloc 10)
           (SetStdoutFile "eclipse.stdout") (AddArgument "--version")).
  discriminate.
Defined.

(** X11 on a field set to the text None. *)
Lemma optional_string_determined_witness :
  __fprintf_python_string "stdin" (Some "None")
    (mkMem (ext_job_alloc 0) (mkFILE "" false []))
  = __fprintf_python_string "stdin" (Some "None")
      (mkMem (ext_job_alloc 0) (mkFILE "" false []))
  ∧ Some "None" = Some "None".
Proof.
  split; [reflexivity|].
  apply (optional_string_determined (ext_job_alloc 0) "stdin"
           (Some "None") (Some "None") "" false).
  reflexivity.
Defined.
